(** * FIRAClient: the example controller (main.py) over the bridge (bridge.py)

    A shallow embedding of the per-tick decision pipeline of the client:
    the geometry helpers of [bridge.py], the objective assignment, the
    angle difference and the PD controller of [main.py], and one iteration
    of the match loop.

    Python floats are read as real numbers: [math.pi] is [PI], [math.fmod]
    is the truncated remainder, [math.atan2] the two-argument arctangent.
    A Python exception is an explicit [Raise] result, and the function
    attribute [controller.lastError] is an explicit piece of state. *)

From Stdlib Require Import Reals Lra Lia ZArith List Bool String.
Import ListNotations.

Open Scope R_scope.

(** ** Python values, exceptions and results *)

Module Py.

(** The exceptions the embedded code can raise. *)
Inductive exn : Type :=
| TypeError
| KeyError
| IndexError
| AttributeError.

Inductive result (A : Type) : Type :=
| Ok (a : A)
| Raise (e : exn).
Arguments Ok {A} a.
Arguments Raise {A} e.

Definition bind {A B : Type} (r : result A) (k : A -> result B) : result B :=
  match r with
  | Ok a => k a
  | Raise e => Raise e
  end.

(** [try: r except e: d] for a handler that returns a constant. *)
Definition try_except {A : Type} (r : result A) (e : exn) (d : A) : result A :=
  match r with
  | Ok a => Ok a
  | Raise e' =>
      match e, e' with
      | TypeError, TypeError | KeyError, KeyError
      | IndexError, IndexError | AttributeError, AttributeError => Ok d
      | _, _ => Raise e'
      end
  end.

(** What the vision library may hand to a conversion function: a float,
    [None], or some other object on which arithmetic is a type error. *)
Inductive value : Type :=
| VNone
| VFloat (r : R)
| VStr (s : string).

(** [float + v] *)
Definition radd (l : R) (v : value) : result R :=
  match v with
  | VFloat r => Ok (l + r)
  | VNone | VStr _ => Raise TypeError
  end.

(** Truncation of a real towards zero, as the C library rounds the
    quotient in [fmod]. [Int_part] is the floor. *)
Definition Rtrunc (r : R) : Z :=
  if Rle_dec 0 r then Int_part r else (- Int_part (- r))%Z.

(** [math.fmod] on floats read as reals; the divisor is never zero here. *)
Definition fmod (x y : R) : R := x - IZR (Rtrunc (x / y)) * y.

(** [math.fmod(v, y)] on an arbitrary first argument. *)
Definition fmod_value (v : value) (y : R) : result R :=
  match v with
  | VFloat r => Ok (fmod r y)
  | VNone | VStr _ => Raise TypeError
  end.

(** [range(n)] *)
Definition range (n : nat) : list nat := seq 0 n.

(** [l[i]] on a list *)
Definition getitem {A : Type} (l : list A) (i : nat) : result A :=
  match nth_error l i with
  | Some a => Ok a
  | None => Raise IndexError
  end.

End Py.

Import Py.

Notation "x <- r ;; k" := (bind r (fun x => k))
  (at level 61, r at next level, right associativity).

(** ** bridge.py *)

Module Bridge.

Definition NUM_BOTS : nat := 3.

Definition LENGTH : R := 1.7 / 2.0.
Definition WIDTH : R := 1.3 / 2.0.

(** The body of the [try] in [convert_width]: [(WIDTH + w) * 100]. *)
Definition convert_width_body (w : value) : result R :=
  s <- radd WIDTH w ;; Ok (s * 100).

Definition convert_width (w : value) : result R :=
  try_except (convert_width_body w) TypeError 0.

Definition convert_length_body (d : value) : result R :=
  s <- radd LENGTH d ;; Ok (s * 100).

Definition convert_length (d : value) : result R :=
  try_except (convert_length_body d) TypeError 0.

Definition convert_angle_body (a : value) : result R :=
  angle <- fmod_value a (2 * PI) ;;
  if Rlt_dec angle (- PI) then Ok (angle + 2 * PI)
  else if Rgt_dec angle PI then Ok (angle - 2 * PI)
  else Ok angle.

Definition convert_angle (a : value) : result R :=
  try_except (convert_angle_body a) TypeError 0.

(** [convert_angle] applied to a float, as [main.py] calls it: on a float
    the [try] body never raises, so the result is read off directly. *)
Definition convert_angle_float (a : R) : R :=
  match convert_angle (VFloat a) with
  | Ok r => r
  | Raise _ => 0
  end.

(** One call of [lib.actuator_send_command]. *)
Record Command : Type := mkCommand {
  cmd_index : nat;
  cmd_left : R;
  cmd_right : R
}.

(** [Actuator.send]: the command that goes out. *)
Definition send (index : nat) (left right : R) : Command :=
  mkCommand index left right.

(** [Actuator.stop]: a zero command for every robot, in index order. *)
Definition stop : list Command :=
  map (fun i => send i 0 0) (range NUM_BOTS).

End Bridge.

Import Bridge.

(** ** main.py *)

Module Main.

(** Modelled from the spec: the class [Entity], which [main.py] imports
    from the bridge and [bridge.py] does not define. An entity carries a
    robot index, a position and a heading (the spec's [Pose2D] with an
    index); [Entity(index=i)] leaves the other attributes at the absent
    value 0. *)
Record Entity : Type := mkEntity {
  index : nat;
  x : R;
  y : R;
  a : R
}.

Definition Entity_init (i : nat) : Entity := mkEntity i 0 0 0.

(** What a key of the field dictionary can hold. *)
Inductive item : Type :=
| IEntity (e : Entity)
| IList (l : list Entity).

(** The field dictionary, in insertion order. *)
Definition Field : Type := list (string * item).

(** [field[k]] *)
Fixpoint lookup (field : Field) (k : string) : result item :=
  match field with
  | [] => Raise KeyError
  | (k', v) :: rest => if String.eqb k k' then Ok v else lookup rest k
  end.

(** [o.x] and [o.y] on whatever the dictionary held. *)
Definition attr_x (o : item) : result R :=
  match o with
  | IEntity e => Ok (x e)
  | IList _ => Raise AttributeError
  end.

Definition attr_y (o : item) : result R :=
  match o with
  | IEntity e => Ok (y e)
  | IList _ => Raise AttributeError
  end.

(** [o[i]]: a list is indexed, an entity is not subscriptable. *)
Definition item_getitem (o : item) (i : nat) : result Entity :=
  match o with
  | IList l => getitem l i
  | IEntity _ => Raise TypeError
  end.

(** The loop of [main_strategy]: every objective takes the ball's
    coordinates. *)
Fixpoint set_objectives (ball : item) (objectives : list Entity)
  : result (list Entity) :=
  match objectives with
  | [] => Ok []
  | obj :: rest =>
      bx <- attr_x ball ;;
      by_ <- attr_y ball ;;
      rest' <- set_objectives ball rest ;;
      Ok (mkEntity (index obj) bx by_ (a obj) :: rest')
  end.

Definition main_strategy (field : Field) : result (list Entity) :=
  ball <- lookup field "ball" ;;
  set_objectives ball (map Entity_init (range NUM_BOTS)).

Definition smallestAngleDiff (target source : R) : R :=
  let a := fmod (target + 2 * PI) (2 * PI) - fmod (source + 2 * PI) (2 * PI) in
  if Rgt_dec a PI then a - 2 * PI
  else if Rlt_dec a (- PI) then a + 2 * PI
  else a.

(** [math.atan2] on reals (no signed zeros): the angle of the point
    [(x, y)], in [(-PI, PI]], and 0 at the origin. *)
Definition atan2 (y x : R) : R :=
  if Rlt_dec 0 x then atan (y / x)
  else if Rlt_dec x 0 then
    if Rle_dec 0 y then atan (y / x) + PI else atan (y / x) - PI
  else if Rlt_dec 0 y then PI / 2
  else if Rlt_dec y 0 then - (PI / 2)
  else 0.

Definition Kp : R := 20.
Definition Kd : R := 2.5.
Definition baseSpeed : R := 30.

(** Lines 64-69 of [controller]: the heading error and the reversed flag. *)
Definition heading_error (angle_rob angle_obj : R) : bool * R :=
  let error := smallestAngleDiff angle_rob angle_obj in
  if Rgt_dec (Rabs error) (PI / 2.0 + PI / 20.0) then
    let angle_rob' := convert_angle_float (angle_rob + PI) in
    (true, smallestAngleDiff angle_rob' angle_obj)
  else (false, error).

(** Line 72: the PD term. *)
Definition pd_term (error lastError : R) : R :=
  (Kp * error) + (Kd * (error - lastError)).

(** Lines 79-80: the two conditional expressions under "normalize". *)
Definition normalize (error_speed : R) : R :=
  let error_speed := if Rlt_dec error_speed baseSpeed then error_speed else baseSpeed in
  if Rgt_dec error_speed (- baseSpeed) then error_speed else - baseSpeed.

(** Lines 82-95: the forward mix, overwritten when [reversed] is set. *)
Definition motor_speeds (reversed : bool) (error_speed : R) : R * R :=
  let forward :=
    if Rgt_dec error_speed 0
    then (baseSpeed, baseSpeed - error_speed)
    else (baseSpeed + error_speed, baseSpeed) in
  if reversed then
    if Rgt_dec error_speed 0
    then (- baseSpeed + error_speed, - baseSpeed)
    else (- baseSpeed, - baseSpeed - error_speed)
  else forward.

(** One entry of [speeds]: the dictionary with keys index, left, right. *)
Record Speed : Type := mkSpeed {
  s_index : nat;
  s_left : R;
  s_right : R
}.

(** The function attribute [controller.lastError]: [None] until the first
    iteration of the loop sets it. *)
Definition State : Type := option R.

(** The [try]/[except AttributeError] at the head of the loop body. *)
Definition ensure_lastError (st : State) : R :=
  match st with
  | Some e => e
  | None => 0
  end.

(** The wheel speeds of one robot from its pose, its objective and the
    stored error, with the error that is stored afterwards. *)
Definition drive (our_bot objective : Entity) (lastError : R) : (R * R) * R :=
  let angle_rob := a our_bot in
  let angle_obj := atan2 (y objective - y our_bot) (x objective - x our_bot) in
  let '(reversed, error) := heading_error angle_rob angle_obj in
  let error_speed := pd_term error lastError in
  let error_speed := normalize error_speed in
  (motor_speeds reversed error_speed, error).

(** The entry of [speeds] for index [i] from what [drive] returns. *)
Definition speed_of (i : nat) (d : (R * R) * R) : Speed :=
  mkSpeed i (fst (fst d)) (snd (fst d)).

(** One iteration of the loop of [controller], for index [i]. An exception
    leaves the attribute as the iteration had it by then. *)
Definition controller_step (i : nat) (our_bots : item) (objectives : list Entity)
  (st : State) : result Speed * State :=
  let lastError := ensure_lastError st in
  match getitem objectives i with
  | Raise e => (Raise e, Some lastError)
  | Ok objective =>
      match item_getitem our_bots i with
      | Raise e => (Raise e, Some lastError)
      | Ok our_bot =>
          let '((left_speed, right_speed), error) := drive our_bot objective lastError in
          (Ok (mkSpeed i left_speed right_speed), Some error)
      end
  end.

Fixpoint controller_loop (indices : list nat) (our_bots : item)
  (objectives : list Entity) (st : State) : result (list Speed) * State :=
  match indices with
  | [] => (Ok [], st)
  | i :: rest =>
      match controller_step i our_bots objectives st with
      | (Raise e, st') => (Raise e, st')
      | (Ok s, st') =>
          match controller_loop rest our_bots objectives st' with
          | (Raise e, st'') => (Raise e, st'')
          | (Ok ss, st'') => (Ok (s :: ss), st'')
          end
      end
  end.

Definition controller (field : Field) (objectives : list Entity) (st : State)
  : result (list Speed) * State :=
  match lookup field "our_bots" with
  | Raise e => (Raise e, st)
  | Ok our_bots => controller_loop (range NUM_BOTS) our_bots objectives st
  end.

(** [Actuator.send_all] on the list the controller returns: every entry
    has its three keys, so no send raises. *)
Definition send_all (speeds : list Speed) : list Command :=
  map (fun s => send (s_index s) (s_left s) (s_right s)) speeds.

(** What [referee.get_data()] returns, as far as the loop reads it. *)
Record RefData : Type := mkRefData {
  foul : Z;
  game_on : bool
}.

Definition GAME_ON : Z := 6.
Definition HALT : Z := 7.

(** One iteration of the main loop: the commands sent to the actuator and
    the controller's attribute afterwards. *)
Definition tick (ref_data : RefData) (field : Field) (st : State)
  : result (list Command) * State :=
  if game_on ref_data then
    match main_strategy field with
    | Raise e => (Raise e, st)
    | Ok objectives =>
        match controller field objectives st with
        | (Raise e, st') => (Raise e, st')
        | (Ok speeds, st') => (Ok (send_all speeds), st')
        end
    end
  else if negb (foul ref_data =? 7)%Z then (Ok stop, st)
  else (Ok stop, st).

End Main.

Import Main.

(** ** The specification's reading of the controller

    Definitions that follow the words of the specification, to be compared
    with the code above. *)

Module Spec.

(** "Clamp [errorSpeed] to [[-baseSpeed, baseSpeed]]". *)
Definition clamp (lo hi v : R) : R := Rmax lo (Rmin hi v).

(** The differential mix as the specification words it: [>=] in the
    forward case, [>] in the reversed case. *)
Definition mix (reversed : bool) (errorSpeed : R) : R * R :=
  if reversed then
    if Rgt_dec errorSpeed 0
    then (- baseSpeed + errorSpeed, - baseSpeed)
    else (- baseSpeed, - baseSpeed - errorSpeed)
  else
    if Rge_dec errorSpeed 0
    then (baseSpeed, baseSpeed - errorSpeed)
    else (baseSpeed + errorSpeed, baseSpeed).

(** [ControllerState] as the specification has it: one [lastHeadingError]
    per robot index, absent until first used for that index. *)
Definition PerIndex : Type := nat -> option R.

Definition initial : PerIndex := fun _ => None.

Definition store (st : PerIndex) (i : nat) (e : R) : PerIndex :=
  fun j => if Nat.eqb j i then Some e else st j.

(** The controller of the code with the stored error read and written at
    the robot's own index. *)
Definition controller_step_per_index (i : nat) (our_bots : item) (objectives : list Entity)
  (st : PerIndex) : result Speed * PerIndex :=
  let lastHeadingError := ensure_lastError (st i) in
  match getitem objectives i with
  | Raise e => (Raise e, store st i lastHeadingError)
  | Ok objective =>
      match item_getitem our_bots i with
      | Raise e => (Raise e, store st i lastHeadingError)
      | Ok our_bot =>
          let '((left_speed, right_speed), error) :=
            drive our_bot objective lastHeadingError in
          (Ok (mkSpeed i left_speed right_speed), store st i error)
      end
  end.

Fixpoint controller_loop_per_index (indices : list nat) (our_bots : item)
  (objectives : list Entity) (st : PerIndex) : result (list Speed) * PerIndex :=
  match indices with
  | [] => (Ok [], st)
  | i :: rest =>
      match controller_step_per_index i our_bots objectives st with
      | (Raise e, st') => (Raise e, st')
      | (Ok s, st') =>
          match controller_loop_per_index rest our_bots objectives st' with
          | (Raise e, st'') => (Raise e, st'')
          | (Ok ss, st'') => (Ok (s :: ss), st'')
          end
      end
  end.

Definition controller_per_index (field : Field) (objectives : list Entity) (st : PerIndex)
  : result (list Speed) * PerIndex :=
  match lookup field "our_bots" with
  | Raise e => (Raise e, st)
  | Ok our_bots => controller_loop_per_index (range NUM_BOTS) our_bots objectives st
  end.

End Spec.

(** ** Concrete inputs *)

Module Sample.

(** Three robots at the origin, the first turned by one radian, and the
    ball one unit ahead on the x axis. *)
Definition ball : Entity := mkEntity 0 1 0 0.

Definition our_bots : list Entity :=
  [mkEntity 0 0 0 1; mkEntity 1 0 0 0; mkEntity 2 0 0 0].

Definition field : Field :=
  [("ball"%string, IEntity ball); ("our_bots"%string, IList our_bots)].

Definition objectives : list Entity :=
  [mkEntity 0 1 0 0; mkEntity 1 1 0 0; mkEntity 2 1 0 0].

(** A referee reading with the game halted. *)
Definition halted : RefData := mkRefData HALT false.

End Sample.

(** ** bridge.py: the vision client *)

Module Vision.













End Vision.

(** ** main.py: the main loop over several ticks *)

Module Loop.

(** A batch of commands as the actuator should see it: one command per
    robot 0, 1, 2, in this order, with both speeds in [[-30, 30]]. *)
Definition safe_batch (commands : list Command) : Prop :=
  map cmd_index commands = [0; 1; 2]%nat /\
  Forall (fun c => - 30 <= cmd_left c <= 30 /\ - 30 <= cmd_right c <= 30)
    commands.

(** A field that holds a ball and at least three robots of ours. *)
Definition well_formed (field : Field) : Prop :=
  exists (ball b0 b1 b2 : Entity) (bs : list Entity),
    lookup field "ball" = Ok (IEntity ball) /\
    lookup field "our_bots" = Ok (IList (b0 :: b1 :: b2 :: bs)).

(** The main loop over the readings of successive iterations: the batches
    of commands sent, the controller's attribute at the end, and the
    exception that ended the loop, if one did. An exception is not caught
    in the loop, so nothing is sent after it. *)
Fixpoint run (inputs : list (RefData * Field)) (st : State)
  : list (list Command) * State * option exn :=
  match inputs with
  | [] => ([], st, None)
  | (ref_data, field) :: rest =>
      match tick ref_data field st with
      | (Raise e, st') => ([], st', Some e)
      | (Ok commands, st') =>
          let '(sent, st'', e) := run rest st' in
          (commands :: sent, st'', e)
      end
  end.

End Loop.

(** ** Proof steps *)

(** Case analysis on the next comparison of reals in the goal. *)
Ltac case_decision :=
  match goal with
  | |- context [Rlt_dec ?u ?v] => destruct (Rlt_dec u v)
  | |- context [Rgt_dec ?u ?v] => destruct (Rgt_dec u v)
  | |- context [Rle_dec ?u ?v] => destruct (Rle_dec u v)
  | |- context [Rge_dec ?u ?v] => destruct (Rge_dec u v)
  end.

(** Evaluate the mix at a concrete PD term. *)
Ltac eval_mix :=
  unfold motor_speeds, pd_term, Kp, Kd, baseSpeed;
  repeat case_decision; simpl; lra.

(** ** The truncated remainder *)

Section Fmod.

Variable y : R.
Hypothesis y_pos : 0 < y.

Lemma Rtrunc_nonneg (r : R) :
  0 <= r -> IZR (Rtrunc r) <= r < IZR (Rtrunc r) + 1.
Proof.
  intros Hr. unfold Rtrunc.
  destruct (Rle_dec 0 r) as [_ | Hn]; [| contradiction].
  destruct (base_Int_part r) as [Hlo Hhi]. lra.
Qed.

Lemma Rtrunc_neg (r : R) :
  r < 0 -> r <= IZR (Rtrunc r) < r + 1.
Proof.
  intros Hr. unfold Rtrunc.
  destruct (Rle_dec 0 r) as [Hp | _]; [lra |].
  rewrite opp_IZR.
  destruct (base_Int_part (- r)) as [Hlo Hhi]. lra.
Qed.

Lemma Rtrunc_unit (r : R) : -1 < r < 1 -> Rtrunc r = 0%Z.
Proof.
  intros [Hlo Hhi].
  destruct (Rle_dec 0 r) as [Hp | Hn].
  - destruct (Rtrunc_nonneg r Hp) as [H1 H2].
    assert (Hz : (-1 < Rtrunc r < 1)%Z)
      by (split; apply lt_IZR; lra).
    lia.
  - destruct (Rtrunc_neg r ltac:(lra)) as [H1 H2].
    assert (Hz : (-1 < Rtrunc r < 1)%Z)
      by (split; apply lt_IZR; lra).
    lia.
Qed.

Lemma quotient_times (x : R) : x / y * y = x.
Proof. field. lra. Qed.

Lemma fmod_quotient (x : R) :
  fmod x y = (x / y - IZR (Rtrunc (x / y))) * y.
Proof.
  unfold fmod. rewrite Rmult_minus_distr_r, quotient_times. reflexivity.
Qed.

Lemma fmod_nonneg_range (x : R) : 0 <= x -> 0 <= fmod x y < y.
Proof.
  intros Hx.
  assert (Hq : 0 <= x / y).
  { unfold Rdiv. apply Rmult_le_pos; [lra |].
    left. apply Rinv_0_lt_compat. lra. }
  destruct (Rtrunc_nonneg _ Hq) as [H1 H2].
  rewrite fmod_quotient. split; nra.
Qed.

Lemma fmod_nonpos_range (x : R) : x <= 0 -> - y < fmod x y <= 0.
Proof.
  intros Hx.
  destruct (Req_dec x 0) as [-> | Hne].
  - unfold fmod. unfold Rdiv. rewrite Rmult_0_l.
    rewrite Rtrunc_unit by lra. simpl. lra.
  - assert (Hq : x / y < 0).
    { unfold Rdiv. assert (0 < / y) by (apply Rinv_0_lt_compat; lra). nra. }
    destruct (Rtrunc_neg _ Hq) as [H1 H2].
    rewrite fmod_quotient. split; nra.
Qed.

Lemma fmod_small (x : R) : - y < x < y -> fmod x y = x.
Proof.
  intros [Hlo Hhi].
  assert (Hi : 0 < / y) by (apply Rinv_0_lt_compat; lra).
  assert (Hq : -1 < x / y < 1).
  { split.
    - apply Rmult_lt_reg_r with y; [lra |]. rewrite quotient_times. lra.
    - apply Rmult_lt_reg_r with y; [lra |]. rewrite quotient_times. lra. }
  unfold fmod. rewrite (Rtrunc_unit _ Hq). simpl. lra.
Qed.

Lemma fmod_add_period (x : R) : 0 <= x < y -> fmod (x + y) y = x.
Proof.
  intros [Hlo Hhi].
  assert (Hq : (x + y) / y = x / y + 1) by (field; lra).
  assert (Hx : 0 <= x / y < 1).
  { split.
    - apply Rmult_le_reg_r with y; [lra |]. rewrite quotient_times. lra.
    - apply Rmult_lt_reg_r with y; [lra |]. rewrite quotient_times. lra. }
  assert (Ht : Rtrunc ((x + y) / y) = 1%Z).
  { rewrite Hq.
    destruct (Rtrunc_nonneg (x / y + 1) ltac:(lra)) as [H1 H2].
    assert (Hz : (0 < Rtrunc (x / y + 1) < 2)%Z)
      by (split; apply lt_IZR; lra).
    lia. }
  unfold fmod. rewrite Ht. lra.
Qed.

Lemma fmod_congruent (x : R) : exists k : Z, fmod x y = x + IZR k * y.
Proof.
  exists (- Rtrunc (x / y))%Z. unfold fmod. rewrite opp_IZR. lra.
Qed.

Lemma fmod_bounds (x : R) : - y < fmod x y < y.
Proof.
  destruct (Rle_dec 0 x) as [Hp | Hn].
  - pose proof (fmod_nonneg_range x Hp). lra.
  - pose proof (fmod_nonpos_range x ltac:(lra)). lra.
Qed.

End Fmod.

(** ** Facts about [PI] used throughout *)

Lemma PI_gt_3 : 3 < PI.
Proof. pose proof PI2_3_2. lra. Qed.

Lemma two_PI_pos : 0 < 2 * PI.
Proof. pose proof PI_gt_3. lra. Qed.

(** ** bridge.py: the geometry helpers *)

Lemma convert_angle_float_eq (x : R) :
  convert_angle (VFloat x) = Ok (convert_angle_float x).
Proof.
  unfold convert_angle_float, convert_angle, convert_angle_body. simpl.
  destruct (Rlt_dec _ _); [reflexivity |].
  destruct (Rgt_dec _ _); reflexivity.
Qed.

Lemma convert_angle_float_unfold (x : R) :
  convert_angle_float x =
    let angle := fmod x (2 * PI) in
    if Rlt_dec angle (- PI) then angle + 2 * PI
    else if Rgt_dec angle PI then angle - 2 * PI
    else angle.
Proof.
  unfold convert_angle_float, convert_angle, convert_angle_body. simpl.
  destruct (Rlt_dec _ _); [reflexivity |].
  destruct (Rgt_dec _ _); reflexivity.
Qed.

Lemma convert_angle_float_range (x : R) :
  - PI <= convert_angle_float x <= PI.
Proof.
  rewrite convert_angle_float_unfold. cbv zeta.
  pose proof (fmod_bounds (2 * PI) two_PI_pos x) as Hb.
  destruct (Rlt_dec _ _); [lra |].
  destruct (Rgt_dec _ _); lra.
Qed.

Lemma convert_angle_float_fixed (r : R) :
  - PI <= r <= PI -> convert_angle_float r = r.
Proof.
  intros Hr. pose proof PI_gt_3.
  rewrite convert_angle_float_unfold. cbv zeta.
  rewrite (fmod_small (2 * PI) two_PI_pos r) by lra.
  destruct (Rlt_dec _ _); [lra |].
  destruct (Rgt_dec _ _); lra.
Qed.

(** C7. The coordinate conversions never raise: on a numeric raw value
    [convert_length] returns [(LENGTH + raw) * 100] and [convert_width]
    returns [(WIDTH + raw) * 100], with the half-field constants
    [1.7 / 2] and [1.3 / 2]; on [None] each returns 0; and whatever the
    argument, each returns a number. *)
Theorem convert_length_width_total :
  (forall raw : R,
      convert_length (VFloat raw) = Ok ((LENGTH + raw) * 100) /\
      convert_width (VFloat raw) = Ok ((WIDTH + raw) * 100)) /\
  convert_length VNone = Ok 0 /\
  convert_width VNone = Ok 0 /\
  (forall v : value,
      (exists r, convert_length v = Ok r) /\
      (exists r, convert_width v = Ok r)).
Proof.
  split; [intros raw; split; reflexivity |].
  split; [reflexivity |].
  split; [reflexivity |].
  intros [| raw | s]; split; eexists; reflexivity.
Qed.

(** C9. [convert_angle] is idempotent: on every argument (a float, [None]
    or anything else) it returns a number, and converting that number
    again gives the same number. *)
Theorem convert_angle_idempotent (v : value) :
  exists r, convert_angle v = Ok r /\ convert_angle (VFloat r) = Ok r.
Proof.
  destruct v as [| x | s].
  - exists 0. split; [reflexivity |].
    rewrite convert_angle_float_eq, convert_angle_float_fixed; [reflexivity |].
    pose proof PI_gt_3. lra.
  - exists (convert_angle_float x). split; [apply convert_angle_float_eq |].
    rewrite convert_angle_float_eq, convert_angle_float_fixed; [reflexivity |].
    apply convert_angle_float_range.
  - exists 0. split; [reflexivity |].
    rewrite convert_angle_float_eq, convert_angle_float_fixed; [reflexivity |].
    pose proof PI_gt_3. lra.
Qed.

(** ** main.py: the angle difference *)

Lemma smallestAngleDiff_unfold (target source : R) :
  smallestAngleDiff target source =
    let d := fmod (target + 2 * PI) (2 * PI) - fmod (source + 2 * PI) (2 * PI) in
    if Rgt_dec d PI then d - 2 * PI
    else if Rlt_dec d (- PI) then d + 2 * PI
    else d.
Proof. reflexivity. Qed.

(** The result differs from [target - source] by a whole number of turns,
    whatever the arguments. *)
Lemma smallestAngleDiff_congruent (target source : R) :
  exists k : Z,
    smallestAngleDiff target source = target - source + IZR k * (2 * PI).
Proof.
  rewrite smallestAngleDiff_unfold. cbv zeta.
  destruct (fmod_congruent (2 * PI) (target + 2 * PI)) as [kt Ht].
  destruct (fmod_congruent (2 * PI) (source + 2 * PI)) as [ks Hs].
  rewrite Ht, Hs.
  destruct (Rgt_dec _ _); [| destruct (Rlt_dec _ _)].
  - exists (kt - ks - 1)%Z. rewrite !minus_IZR. lra.
  - exists (kt - ks + 1)%Z. rewrite plus_IZR, minus_IZR. lra.
  - exists (kt - ks)%Z. rewrite minus_IZR. lra.
Qed.

(** With both arguments at or above [-2 * PI] the two remainders are
    nonnegative and one correction is enough. *)
Lemma smallestAngleDiff_closed_range (target source : R) :
  - (2 * PI) <= target -> - (2 * PI) <= source ->
  - PI <= smallestAngleDiff target source <= PI.
Proof.
  intros Ht Hs.
  rewrite smallestAngleDiff_unfold. cbv zeta.
  pose proof (fmod_nonneg_range (2 * PI) two_PI_pos (target + 2 * PI) ltac:(lra)).
  pose proof (fmod_nonneg_range (2 * PI) two_PI_pos (source + 2 * PI) ltac:(lra)).
  destruct (Rgt_dec _ _); [lra |].
  destruct (Rlt_dec _ _); lra.
Qed.

(** Two angles of [[-PI, PI]] and [(-PI, PI]] that differ by whole turns
    are equal, or are the two ends. *)
Lemma congruent_in_range (d v : R) (k : Z) :
  - PI <= d <= PI -> - PI < v <= PI -> d = v + IZR k * (2 * PI) ->
  v = d \/ (d = - PI /\ v = PI).
Proof.
  intros Hd Hv Heq. pose proof PI_gt_3 as Hpi.
  assert (Hk : (-2 < k < 1)%Z).
  { split; apply lt_IZR.
    - assert (-2 * (2 * PI) < IZR k * (2 * PI)) by lra. nra.
    - assert (IZR k * (2 * PI) < 1 * (2 * PI)) by lra. nra. }
  assert (Hc : k = (-1)%Z \/ k = 0%Z) by lia.
  destruct Hc as [-> | ->].
  - right. lra.
  - left. lra.
Qed.

Lemma smallestAngleDiff_0_PI : smallestAngleDiff 0 PI = - PI.
Proof.
  pose proof PI_gt_3 as Hpi.
  rewrite smallestAngleDiff_unfold. cbv zeta.
  rewrite (fmod_add_period (2 * PI) two_PI_pos 0) by lra.
  rewrite (fmod_add_period (2 * PI) two_PI_pos PI) by lra.
  destruct (Rgt_dec _ _); [lra |].
  destruct (Rlt_dec _ _); lra.
Qed.

Lemma smallestAngleDiff_far_negative :
  smallestAngleDiff (- (7 * PI / 2)) (7 * PI / 4) = - (5 * PI / 4).
Proof.
  pose proof PI_gt_3 as Hpi.
  rewrite smallestAngleDiff_unfold. cbv zeta.
  rewrite (fmod_small (2 * PI) two_PI_pos (- (7 * PI / 2) + 2 * PI)) by lra.
  rewrite (fmod_add_period (2 * PI) two_PI_pos (7 * PI / 4)) by lra.
  destruct (Rgt_dec _ _); [lra |].
  destruct (Rlt_dec _ _); lra.
Qed.

(** C2, as stated, fails. With the target at 0 and the source at [PI] the
    difference is returned as [-PI], which is outside [(-PI, PI]]; and
    with the target below [-2 * PI] the single correction is not enough:
    for [-7 PI / 2] against [7 PI / 4] the result is [-5 PI / 4]. *)
Lemma smallestAngleDiff_not_half_open :
  ~ (- PI < smallestAngleDiff 0 PI <= PI) /\
  ~ (- PI < smallestAngleDiff (- (7 * PI / 2)) (7 * PI / 4) <= PI).
Proof.
  pose proof PI_gt_3 as Hpi.
  rewrite smallestAngleDiff_0_PI, smallestAngleDiff_far_negative.
  split; lra.
Qed.

(** C2, amended. For a target and a source at or above [-2 * PI] (every
    heading and bearing the controller passes is in [[-PI, PI]]) the
    result lies in the closed interval [[-PI, PI]] and differs from
    [target - source] by a whole number of turns; it is the
    representative in [(-PI, PI]] of that difference, except that it may
    be [-PI] where that representative is [PI]. *)
Theorem smallestAngleDiff_closed_interval (target source : R) :
  - (2 * PI) <= target -> - (2 * PI) <= source ->
  - PI <= smallestAngleDiff target source <= PI /\
  (exists k : Z,
      smallestAngleDiff target source = target - source + IZR k * (2 * PI)) /\
  (forall (v : R) (k : Z),
      - PI < v <= PI -> v = target - source + IZR k * (2 * PI) ->
      v = smallestAngleDiff target source \/
      (smallestAngleDiff target source = - PI /\ v = PI)).
Proof.
  intros Ht Hs.
  pose proof (smallestAngleDiff_closed_range target source Ht Hs) as Hr.
  destruct (smallestAngleDiff_congruent target source) as [kd Hd].
  split; [exact Hr |]. split; [exists kd; exact Hd |].
  intros v k Hv Hk.
  apply (congruent_in_range _ v (kd - k)%Z Hr Hv).
  rewrite Hd, Hk, minus_IZR. lra.
Qed.

Lemma smallestAngleDiff_closed_interval_witness :
  - (2 * PI) <= 0 /\ - (2 * PI) <= PI /\
  - PI <= smallestAngleDiff 0 PI <= PI.
Proof.
  pose proof PI_gt_3 as Hpi.
  assert (H0 : - (2 * PI) <= 0) by lra.
  assert (H1 : - (2 * PI) <= PI) by lra.
  split; [exact H0 |]. split; [exact H1 |].
  exact (proj1 (smallestAngleDiff_closed_interval 0 PI H0 H1)).
Defined.

Lemma smallestAngleDiff_diag (a : R) : smallestAngleDiff a a = 0.
Proof.
  pose proof PI_gt_3 as Hpi.
  rewrite smallestAngleDiff_unfold. cbv zeta.
  replace (fmod (a + 2 * PI) (2 * PI) - fmod (a + 2 * PI) (2 * PI)) with 0 by ring.
  destruct (Rgt_dec _ _); [lra |].
  destruct (Rlt_dec _ _); lra.
Qed.

(** C8. The difference of an angle with itself is exactly zero, for every
    angle. *)
Theorem smallestAngleDiff_self (a : R) : smallestAngleDiff a a = 0.
Proof. apply smallestAngleDiff_diag. Qed.

(** ** main.py: the controller, one robot *)

Lemma normalize_range (error_speed : R) :
  - baseSpeed <= normalize error_speed <= baseSpeed.
Proof.
  unfold normalize, baseSpeed.
  destruct (Rlt_dec _ _); destruct (Rgt_dec _ _); lra.
Qed.

Lemma normalize_inside (error_speed : R) :
  - baseSpeed < error_speed < baseSpeed -> normalize error_speed = error_speed.
Proof.
  unfold normalize, baseSpeed. intros H.
  destruct (Rlt_dec _ _); destruct (Rgt_dec _ _); lra.
Qed.

Lemma normalize_clamp (error_speed : R) :
  normalize error_speed = Spec.clamp (- baseSpeed) baseSpeed error_speed.
Proof.
  unfold normalize, Spec.clamp, baseSpeed, Rmax, Rmin.
  destruct (Rlt_dec error_speed 30); destruct (Rle_dec 30 error_speed);
    try lra; repeat case_decision; lra.
Qed.

Lemma motor_speeds_mix (reversed : bool) (error_speed : R) :
  motor_speeds reversed error_speed = Spec.mix reversed error_speed.
Proof.
  unfold motor_speeds, Spec.mix.
  destruct reversed; [reflexivity |].
  destruct (Rgt_dec _ _); destruct (Rge_dec _ _); try reflexivity; try lra.
  assert (error_speed = 0) by lra. subst. f_equal; lra.
Qed.

Lemma drive_unfold (our_bot objective : Entity) (lastError : R) :
  drive our_bot objective lastError =
    let angle_obj := atan2 (y objective - y our_bot) (x objective - x our_bot) in
    let re := heading_error (a our_bot) angle_obj in
    (motor_speeds (fst re) (normalize (pd_term (snd re) lastError)), snd re).
Proof.
  unfold drive. cbv zeta.
  destruct (heading_error _ _) as [reversed error]. reflexivity.
Qed.

(** C3. The PD term is clamped into [[-baseSpeed, baseSpeed]], with
    [baseSpeed = 30], and the wheel speeds are the differential mix of the
    clamped term as the specification words it, in the forward case and in
    the reversed case. *)
Theorem drive_clamp_then_mix (our_bot objective : Entity) (lastError : R) :
  let angle_obj := atan2 (y objective - y our_bot) (x objective - x our_bot) in
  let reversed := fst (heading_error (a our_bot) angle_obj) in
  let error := snd (heading_error (a our_bot) angle_obj) in
  let errorSpeed := Kp * error + Kd * (error - lastError) in
  baseSpeed = 30 /\
  fst (drive our_bot objective lastError) =
    Spec.mix reversed (Spec.clamp (- baseSpeed) baseSpeed errorSpeed).
Proof.
  cbv zeta. split; [reflexivity |].
  rewrite drive_unfold. cbv zeta. simpl fst.
  rewrite motor_speeds_mix, normalize_clamp. reflexivity.
Qed.

(** C4. The controller enters reversed mode exactly when the first heading
    error exceeds [PI / 2 + PI / 20] in absolute value; it then replaces
    the heading by [convert_angle (heading + PI)] and recomputes the error
    from it, and the recomputed error is the one that enters the PD term
    and is stored. Otherwise the first error is used. *)
Theorem reversed_mode (our_bot objective : Entity) (lastError : R) :
  let angle_obj := atan2 (y objective - y our_bot) (x objective - x our_bot) in
  let error := smallestAngleDiff (a our_bot) angle_obj in
  let heading' := convert_angle_float (a our_bot + PI) in
  let error' := smallestAngleDiff heading' angle_obj in
  convert_angle (VFloat (a our_bot + PI)) = Ok heading' /\
  (fst (heading_error (a our_bot) angle_obj) = true <->
   Rabs error > PI / 2 + PI / 20) /\
  drive our_bot objective lastError =
    if Rgt_dec (Rabs error) (PI / 2 + PI / 20)
    then (motor_speeds true (normalize (pd_term error' lastError)), error')
    else (motor_speeds false (normalize (pd_term error lastError)), error).
Proof.
  cbv zeta. split; [apply convert_angle_float_eq |].
  rewrite drive_unfold. cbv zeta. unfold heading_error.
  replace (PI / 2.0 + PI / 20.0) with (PI / 2 + PI / 20) by lra.
  destruct (Rgt_dec _ _) as [Hgt | Hle]; simpl.
  - split; [tauto | reflexivity].
  - split; [| reflexivity]. split; [discriminate | contradiction].
Qed.

Lemma motor_speeds_range (reversed : bool) (error_speed : R) :
  - baseSpeed <= error_speed <= baseSpeed ->
  if reversed
  then (- baseSpeed <= fst (motor_speeds reversed error_speed) <= 0 /\
        - baseSpeed <= snd (motor_speeds reversed error_speed) <= 0)
  else (0 <= fst (motor_speeds reversed error_speed) <= baseSpeed /\
        0 <= snd (motor_speeds reversed error_speed) <= baseSpeed).
Proof.
  unfold motor_speeds, baseSpeed. intros H.
  destruct reversed; destruct (Rgt_dec _ _); simpl; lra.
Qed.

(** C10. Whatever the pose, the objective and the stored error, both wheel
    speeds lie in [[-30, 30]]: in [[0, 30]] when reversed mode is not
    triggered and in [[-30, 0]] when it is. *)
Theorem wheel_speeds_bounded (our_bot objective : Entity) (lastError : R) :
  let angle_obj := atan2 (y objective - y our_bot) (x objective - x our_bot) in
  let reversed := fst (heading_error (a our_bot) angle_obj) in
  let left_speed := fst (fst (drive our_bot objective lastError)) in
  let right_speed := snd (fst (drive our_bot objective lastError)) in
  baseSpeed = 30 /\
  (- baseSpeed <= left_speed <= baseSpeed /\
   - baseSpeed <= right_speed <= baseSpeed) /\
  (if reversed
   then - baseSpeed <= left_speed <= 0 /\ - baseSpeed <= right_speed <= 0
   else 0 <= left_speed <= baseSpeed /\ 0 <= right_speed <= baseSpeed).
Proof.
  cbv zeta. split; [reflexivity |].
  rewrite drive_unfold. cbv zeta. simpl fst.
  set (reversed := fst (heading_error _ _)).
  set (es := normalize _).
  pose proof (motor_speeds_range reversed es (normalize_range _)) as Hm.
  assert (Hb : 0 < baseSpeed) by (unfold baseSpeed; lra).
  destruct reversed; split; try exact Hm; lra.
Qed.

(** ** main.py: objective assignment *)

Lemma set_objectives_entity (ball : Entity) (objectives : list Entity) :
  set_objectives (IEntity ball) objectives =
    Ok (map (fun obj => mkEntity (index obj) (x ball) (y ball) (a obj)) objectives).
Proof.
  induction objectives as [| obj rest IH]; simpl; [reflexivity |].
  rewrite IH. reflexivity.
Qed.

Lemma main_strategy_entity (field : Field) (ball : Entity) :
  lookup field "ball" = Ok (IEntity ball) ->
  main_strategy field =
    Ok [mkEntity 0 (x ball) (y ball) 0;
        mkEntity 1 (x ball) (y ball) 0;
        mkEntity 2 (x ball) (y ball) 0].
Proof.
  intros Hb. unfold main_strategy. rewrite Hb. cbn [bind].
  rewrite set_objectives_entity. reflexivity.
Qed.

(** C5. On every field snapshot (a dictionary whose ["ball"] entry is an
    entity) [main_strategy] does not raise and returns exactly [NUM_BOTS]
    objectives, with indices 0, 1, 2 in this order, hence without
    duplicate or omission, each at the ball's [(x, y)]. *)
Theorem main_strategy_objectives (field : Field) (ball : Entity) :
  lookup field "ball" = Ok (IEntity ball) ->
  exists objectives : list Entity,
    main_strategy field = Ok objectives /\
    List.length objectives = NUM_BOTS /\
    map index objectives = range NUM_BOTS /\
    NoDup (map index objectives) /\
    Forall (fun obj => x obj = x ball /\ y obj = y ball) objectives.
Proof.
  intros Hb. eexists. split; [apply (main_strategy_entity field ball Hb) |].
  split; [reflexivity |]. split; [reflexivity |]. split.
  - simpl. repeat constructor; simpl; intuition discriminate.
  - repeat constructor.
Qed.

Lemma main_strategy_objectives_witness :
  lookup Sample.field "ball" = Ok (IEntity Sample.ball) /\
  exists objectives : list Entity,
    main_strategy Sample.field = Ok objectives /\
    List.length objectives = NUM_BOTS /\
    map index objectives = range NUM_BOTS /\
    NoDup (map index objectives) /\
    Forall (fun obj => x obj = x Sample.ball /\ y obj = y Sample.ball) objectives.
Proof.
  split; [reflexivity |].
  apply (main_strategy_objectives Sample.field Sample.ball). reflexivity.
Defined.

Example main_strategy_sample :
  main_strategy Sample.field = Ok Sample.objectives.
Proof. apply (main_strategy_entity Sample.field Sample.ball). reflexivity. Qed.

(** ** main.py: the controller loop and its stored error *)

Lemma controller_step_ok (i : nat) (our_bots : item) (objectives : list Entity)
  (st : State) (our_bot objective : Entity) :
  getitem objectives i = Ok objective ->
  item_getitem our_bots i = Ok our_bot ->
  controller_step i our_bots objectives st =
    let d := drive our_bot objective (ensure_lastError st) in
    (Ok (speed_of i d), Some (snd d)).
Proof.
  intros Ho Hb. unfold controller_step. rewrite Ho, Hb. cbv zeta.
  destruct (drive _ _ _) as [[l r] e]. reflexivity.
Qed.

Lemma spec_controller_step_ok (i : nat) (our_bots : item)
  (objectives : list Entity) (st : Spec.PerIndex) (our_bot objective : Entity) :
  getitem objectives i = Ok objective ->
  item_getitem our_bots i = Ok our_bot ->
  Spec.controller_step_per_index i our_bots objectives st =
    let d := drive our_bot objective (ensure_lastError (st i)) in
    (Ok (speed_of i d), Spec.store st i (snd d)).
Proof.
  intros Ho Hb. unfold Spec.controller_step_per_index. rewrite Ho, Hb. cbv zeta.
  destruct (drive _ _ _) as [[l r] e]. reflexivity.
Qed.

Lemma controller_unrolled (field : Field) (b0 b1 b2 o0 o1 o2 : Entity)
  (bs os : list Entity) (st : State) :
  lookup field "our_bots" = Ok (IList (b0 :: b1 :: b2 :: bs)) ->
  let d0 := drive b0 o0 (ensure_lastError st) in
  let d1 := drive b1 o1 (snd d0) in
  let d2 := drive b2 o2 (snd d1) in
  controller field (o0 :: o1 :: o2 :: os) st =
    (Ok [speed_of 0 d0; speed_of 1 d1; speed_of 2 d2], Some (snd d2)).
Proof.
  intros Hf. cbv zeta. unfold controller. rewrite Hf.
  unfold range, NUM_BOTS. simpl seq. cbn [controller_loop].
  rewrite (controller_step_ok 0 _ _ st b0 o0) by reflexivity. cbv beta iota zeta.
  rewrite (controller_step_ok 1 _ _ _ b1 o1) by reflexivity. cbv beta iota zeta.
  rewrite (controller_step_ok 2 _ _ _ b2 o2) by reflexivity. cbv beta iota zeta.
  reflexivity.
Qed.

Lemma spec_controller_unrolled (field : Field) (b0 b1 b2 o0 o1 o2 : Entity)
  (bs os : list Entity) (st : Spec.PerIndex) :
  lookup field "our_bots" = Ok (IList (b0 :: b1 :: b2 :: bs)) ->
  st 1%nat = None -> st 2%nat = None ->
  fst (Spec.controller_per_index field (o0 :: o1 :: o2 :: os) st) =
    Ok [speed_of 0 (drive b0 o0 (ensure_lastError (st 0%nat)));
        speed_of 1 (drive b1 o1 0);
        speed_of 2 (drive b2 o2 0)].
Proof.
  intros Hf H1 H2. unfold Spec.controller_per_index. rewrite Hf.
  unfold range, NUM_BOTS. simpl seq. cbn [Spec.controller_loop_per_index].
  rewrite (spec_controller_step_ok 0 _ _ st b0 o0) by reflexivity. cbv beta iota zeta.
  rewrite (spec_controller_step_ok 1 _ _ _ b1 o1) by reflexivity. cbv beta iota zeta.
  rewrite (spec_controller_step_ok 2 _ _ _ b2 o2) by reflexivity. cbv beta iota zeta.
  unfold Spec.store. simpl Nat.eqb. cbv iota. rewrite H1, H2. reflexivity.
Qed.

(** The sample robots: the bearing to the ball is 0, so the heading error
    of a robot is its heading. *)

Lemma atan2_ahead : atan2 (0 - 0) (1 - 0) = 0.
Proof.
  unfold atan2. destruct (Rlt_dec 0 (1 - 0)) as [_ | Hn]; [| lra].
  replace ((0 - 0) / (1 - 0)) with 0 by (field; lra). apply atan_0.
Qed.

Lemma smallestAngleDiff_source_0 (h : R) :
  0 <= h <= PI -> smallestAngleDiff h 0 = h.
Proof.
  intros Hh. pose proof PI_gt_3 as Hpi.
  rewrite smallestAngleDiff_unfold. cbv zeta.
  rewrite (fmod_add_period (2 * PI) two_PI_pos h) by lra.
  rewrite (fmod_add_period (2 * PI) two_PI_pos 0) by lra.
  destruct (Rgt_dec _ _); [lra |].
  destruct (Rlt_dec _ _); lra.
Qed.

Lemma heading_error_small (h : R) :
  0 <= h <= 1 -> heading_error h 0 = (false, h).
Proof.
  intros Hh. pose proof PI_gt_3 as Hpi. unfold heading_error.
  rewrite smallestAngleDiff_source_0 by lra.
  rewrite Rabs_pos_eq by lra.
  destruct (Rgt_dec _ _); [lra | reflexivity].
Qed.

Lemma drive_sample (i j : nat) (h lastError : R) :
  0 <= h <= 1 -> 0 <= lastError <= 1 ->
  drive (mkEntity i 0 0 h) (mkEntity j 1 0 0) lastError =
    (motor_speeds false (pd_term h lastError), h).
Proof.
  intros Hh Hl. rewrite drive_unfold. cbv zeta. simpl x. simpl y. simpl a.
  rewrite atan2_ahead, heading_error_small by exact Hh. simpl fst. simpl snd.
  rewrite normalize_inside; [reflexivity |].
  unfold pd_term, Kp, Kd, baseSpeed. lra.
Qed.

Lemma speed_eq (i : nat) (l r l' r' : R) :
  l = l' -> r = r' -> mkSpeed i l r = mkSpeed i l' r'.
Proof. intros -> ->. reflexivity. Qed.

Lemma sample_speeds_code :
  fst (controller Sample.field Sample.objectives None) =
    Ok [mkSpeed 0 30 7.5; mkSpeed 1 27.5 30; mkSpeed 2 30 30].
Proof.
  unfold Sample.objectives.
  rewrite (controller_unrolled Sample.field _ _ _ _ _ _ [] [] None eq_refl).
  cbv zeta. simpl fst. simpl ensure_lastError.
  repeat (rewrite !drive_sample by lra; simpl snd).
  unfold speed_of. simpl fst. simpl snd.
  f_equal. repeat (f_equal; try (apply speed_eq; eval_mix)).
Qed.

Lemma sample_speeds_per_index :
  fst (Spec.controller_per_index Sample.field Sample.objectives Spec.initial) =
    Ok [mkSpeed 0 30 7.5; mkSpeed 1 30 30; mkSpeed 2 30 30].
Proof.
  unfold Sample.objectives.
  rewrite (spec_controller_unrolled Sample.field _ _ _ _ _ _ [] []
             Spec.initial eq_refl eq_refl eq_refl).
  simpl ensure_lastError.
  rewrite !drive_sample by lra.
  unfold speed_of. simpl fst. simpl snd.
  f_equal. repeat (f_equal; try (apply speed_eq; eval_mix)).
Qed.

(** The two cases the specification lists for the first tick: a robot at
    the origin with heading 0 drives straight at full speed to a target
    ahead, and straight backwards to a target behind. *)

Lemma atan2_behind : atan2 (0 - 0) (-1 - 0) = PI.
Proof.
  unfold atan2. destruct (Rlt_dec 0 (-1 - 0)) as [Hp | _]; [lra |].
  destruct (Rlt_dec (-1 - 0) 0) as [_ | Hn]; [| lra].
  destruct (Rle_dec 0 (0 - 0)) as [_ | Hn]; [| lra].
  replace ((0 - 0) / (-1 - 0)) with 0 by (field; lra).
  rewrite atan_0. lra.
Qed.

Example drive_target_ahead :
  drive (mkEntity 0 0 0 0) (mkEntity 0 1 0 0) 0 = ((30 + 0, 30), 0).
Proof.
  rewrite drive_sample by lra.
  unfold motor_speeds, pd_term, Kp, Kd, baseSpeed.
  destruct (Rgt_dec _ _) as [Hp | _]; [lra |].
  repeat f_equal; lra.
Qed.

Example drive_target_behind :
  heading_error 0 PI = (true, 0) /\
  drive (mkEntity 0 0 0 0) (mkEntity 0 (-1) 0 0) 0 = ((-30, -30 - 0), 0).
Proof.
  pose proof PI_gt_3 as Hpi.
  assert (He : heading_error 0 PI = (true, 0)).
  { unfold heading_error. rewrite smallestAngleDiff_0_PI.
    rewrite Rabs_Ropp, Rabs_pos_eq by lra.
    destruct (Rgt_dec _ _) as [_ | Hn]; [| lra].
    replace (0 + PI) with PI by lra.
    rewrite convert_angle_float_fixed by lra.
    rewrite smallestAngleDiff_diag. reflexivity. }
  split; [exact He |].
  rewrite drive_unfold. cbv zeta. simpl x. simpl y. simpl a.
  rewrite atan2_behind, He. simpl fst. simpl snd.
  rewrite normalize_inside by (unfold pd_term, Kp, Kd, baseSpeed; lra).
  unfold motor_speeds, pd_term, Kp, Kd, baseSpeed.
  destruct (Rgt_dec _ _) as [Hp | _]; [lra |].
  repeat f_equal; lra.
Qed.

(** C1, as stated, fails. On the first run of the controller over the
    sample field, robot 0 has heading error 1 and robot 1 has heading error
    0. With one stored error per index robot 1 would get [(30, 30)]; the
    code gives it [(27.5, 30)], because its derivative term is taken
    against the error robot 0 has just stored. *)
Lemma lastError_not_per_index :
  fst (controller Sample.field Sample.objectives None) =
    Ok [mkSpeed 0 30 7.5; mkSpeed 1 27.5 30; mkSpeed 2 30 30] /\
  fst (Spec.controller_per_index Sample.field Sample.objectives Spec.initial) =
    Ok [mkSpeed 0 30 7.5; mkSpeed 1 30 30; mkSpeed 2 30 30] /\
  fst (controller Sample.field Sample.objectives None) <>
    fst (Spec.controller_per_index Sample.field Sample.objectives Spec.initial).
Proof.
  split; [apply sample_speeds_code |].
  split; [apply sample_speeds_per_index |].
  rewrite sample_speeds_code, sample_speeds_per_index.
  intros H. injection H as H. lra.
Qed.

(** C1, amended. The controller keeps one stored error, shared by all
    robot indices: it is 0 when the controller first runs, every robot's
    PD term [Kp * error + Kd * (error - lastError)] is taken against the
    error stored by the robot handled just before it (the previous index
    in the same run, and for index 0 what the previous run left), and
    after the run the stored error is the heading error of the last
    robot. *)
Theorem lastError_shared (field : Field) (b0 b1 b2 o0 o1 o2 : Entity)
  (bs os : list Entity) (st : State) :
  lookup field "our_bots" = Ok (IList (b0 :: b1 :: b2 :: bs)) ->
  let d0 := drive b0 o0 (ensure_lastError st) in
  let d1 := drive b1 o1 (snd d0) in
  let d2 := drive b2 o2 (snd d1) in
  ensure_lastError None = 0 /\
  (forall (b o : Entity) (lastError : R),
      let re := heading_error (a b) (atan2 (y o - y b) (x o - x b)) in
      drive b o lastError =
        (motor_speeds (fst re)
           (normalize (Kp * snd re + Kd * (snd re - lastError))),
         snd re)) /\
  controller field (o0 :: o1 :: o2 :: os) st =
    (Ok [speed_of 0 d0; speed_of 1 d1; speed_of 2 d2], Some (snd d2)).
Proof.
  intros Hf. cbv zeta. split; [reflexivity |]. split.
  - intros b o lastError. apply drive_unfold.
  - apply (controller_unrolled field b0 b1 b2 o0 o1 o2 bs os st Hf).
Qed.

Lemma lastError_shared_witness :
  lookup Sample.field "our_bots" = Ok (IList Sample.our_bots) /\
  snd (controller Sample.field Sample.objectives None) =
    Some (snd (drive (mkEntity 2 0 0 0) (mkEntity 2 1 0 0)
                 (snd (drive (mkEntity 1 0 0 0) (mkEntity 1 1 0 0)
                         (snd (drive (mkEntity 0 0 0 1) (mkEntity 0 1 0 0) 0)))))).
Proof.
  split; [reflexivity |].
  pose proof (lastError_shared Sample.field
                (mkEntity 0 0 0 1) (mkEntity 1 0 0 0) (mkEntity 2 0 0 0)
                (mkEntity 0 1 0 0) (mkEntity 1 1 0 0) (mkEntity 2 1 0 0)
                [] [] None eq_refl) as H.
  cbv zeta in H. destruct H as [_ [_ H]].
  unfold Sample.objectives. rewrite H. reflexivity.
Defined.

(** ** main.py: one tick of the match loop *)

Lemma tick_not_game_on (ref_data : RefData) (field : Field) (st : State) :
  game_on ref_data = false -> tick ref_data field st = (Ok stop, st).
Proof.
  intros Hg. unfold tick. rewrite Hg.
  destruct (negb _); reflexivity.
Qed.

(** C6. With a referee whose [game_on] flag says whether the interrupt is
    [GAME_ON], a tick on which the interrupt is anything else ([HALT],
    value 7, in particular) sends [(left = 0, right = 0)] to each of the
    robots 0, 1, 2, whatever the field holds, and leaves the controller's
    stored error as it was: neither the objective assignment nor the
    controller takes part. *)
Theorem stop_unless_game_on (ref_data : RefData) (field : Field) (st : State) :
  game_on ref_data = (foul ref_data =? GAME_ON)%Z ->
  foul ref_data <> GAME_ON ->
  HALT = 7%Z /\ HALT <> GAME_ON /\
  tick ref_data field st =
    (Ok [mkCommand 0 0 0; mkCommand 1 0 0; mkCommand 2 0 0], st).
Proof.
  intros Hinv Hf.
  split; [reflexivity |]. split; [discriminate |].
  apply tick_not_game_on. rewrite Hinv. apply Z.eqb_neq. exact Hf.
Qed.

Lemma stop_unless_game_on_witness :
  game_on Sample.halted = (foul Sample.halted =? GAME_ON)%Z /\
  foul Sample.halted <> GAME_ON /\
  tick Sample.halted [] (Some 1) =
    (Ok [mkCommand 0 0 0; mkCommand 1 0 0; mkCommand 2 0 0], Some 1).
Proof.
  assert (H1 : game_on Sample.halted = (foul Sample.halted =? GAME_ON)%Z)
    by reflexivity.
  assert (H2 : foul Sample.halted <> GAME_ON) by discriminate.
  split; [exact H1 |]. split; [exact H2 |].
  exact (proj2 (proj2 (stop_unless_game_on Sample.halted [] (Some 1) H1 H2))).
Defined.

(** ** Further properties of the geometry helpers *)

Lemma convert_angle_float_congruent (x : R) :
  exists k : Z, convert_angle_float x = x + IZR k * (2 * PI).
Proof.
  rewrite convert_angle_float_unfold. cbv zeta.
  destruct (fmod_congruent (2 * PI) x) as [k Hk]. rewrite Hk.
  destruct (Rlt_dec _ _); [| destruct (Rgt_dec _ _)].
  - exists (k + 1)%Z. rewrite plus_IZR. lra.
  - exists (k - 1)%Z. rewrite minus_IZR. lra.
  - exists k. reflexivity.
Qed.


(** X2. An angle already in [[-PI, PI]], both ends included, is returned
    unchanged by [convert_angle]. *)
Theorem convert_angle_identity (x : R) :
  - PI <= x <= PI -> convert_angle (VFloat x) = Ok x.
Proof.
  intros Hx. rewrite convert_angle_float_eq.
  rewrite convert_angle_float_fixed by exact Hx. reflexivity.
Qed.

Lemma convert_angle_identity_witness :
  - PI <= - PI <= PI /\ convert_angle (VFloat (- PI)) = Ok (- PI).
Proof.
  assert (H : - PI <= - PI <= PI) by (pose proof PI_gt_3; lra).
  split; [exact H | exact (convert_angle_identity (- PI) H)].
Defined.

(** X3. A raw position inside the field, [-LENGTH <= rx <= LENGTH] and
    [-WIDTH <= ry <= WIDTH], is converted to centimetres from the corner:
    x in [[0, 170]] and y in [[0, 130]]. *)
Theorem convert_inside_field (rx ry : R) :
  - LENGTH <= rx <= LENGTH -> - WIDTH <= ry <= WIDTH ->
  exists cx cy : R,
    convert_length (VFloat rx) = Ok cx /\ convert_width (VFloat ry) = Ok cy /\
    0 <= cx <= 170 /\ 0 <= cy <= 130.
Proof.
  unfold LENGTH, WIDTH. intros Hx Hy.
  exists ((1.7 / 2.0 + rx) * 100), ((1.3 / 2.0 + ry) * 100).
  split; [reflexivity |]. split; [reflexivity |]. lra.
Qed.

Lemma convert_inside_field_witness :
  - LENGTH <= 0 <= LENGTH /\ - WIDTH <= 0 <= WIDTH /\
  exists cx cy : R,
    convert_length (VFloat 0) = Ok cx /\ convert_width (VFloat 0) = Ok cy /\
    0 <= cx <= 170 /\ 0 <= cy <= 130.
Proof.
  assert (Hx : - LENGTH <= 0 <= LENGTH) by (unfold LENGTH; lra).
  assert (Hy : - WIDTH <= 0 <= WIDTH) by (unfold WIDTH; lra).
  split; [exact Hx |]. split; [exact Hy |].
  exact (convert_inside_field 0 0 Hx Hy).
Defined.

(** X4. [convert_length] and [convert_width] return 0 in exactly two
    cases: the argument is not a number, or it is the float on the field's
    edge, [-LENGTH] or [-WIDTH]. A zero coordinate therefore does not tell
    an absent reading from an object on that edge. *)
Theorem convert_zero_cases (v : value) :
  (convert_length v = Ok 0 <->
   v = VFloat (- LENGTH) \/ (forall r : R, v <> VFloat r)) /\
  (convert_width v = Ok 0 <->
   v = VFloat (- WIDTH) \/ (forall r : R, v <> VFloat r)).
Proof.
  split; split.
  - destruct v as [| r | s]; intros H.
    + right. intros r. discriminate.
    + left. injection H as H. f_equal. lra.
    + right. intros r. discriminate.
  - intros [-> | Hn].
    + unfold convert_length, convert_length_body. simpl. f_equal. lra.
    + destruct v as [| r | s]; [reflexivity | | reflexivity].
      exfalso. apply (Hn r). reflexivity.
  - destruct v as [| r | s]; intros H.
    + right. intros r. discriminate.
    + left. injection H as H. f_equal. lra.
    + right. intros r. discriminate.
  - intros [-> | Hn].
    + unfold convert_width, convert_width_body. simpl. f_equal. lra.
    + destruct v as [| r | s]; [reflexivity | | reflexivity].
      exfalso. apply (Hn r). reflexivity.
Qed.

(** ** Further properties of the angle difference *)

(** X5. Swapping the two angles negates the difference, for all
    arguments: the half turn comes out as [PI] one way round and as [-PI]
    the other. *)
Theorem smallestAngleDiff_antisymmetric (target source : R) :
  smallestAngleDiff source target = - smallestAngleDiff target source.
Proof.
  rewrite !smallestAngleDiff_unfold. cbv zeta.
  set (ft := fmod (target + 2 * PI) (2 * PI)).
  set (fs := fmod (source + 2 * PI) (2 * PI)).
  pose proof PI_gt_3 as Hpi.
  destruct (Rgt_dec (fs - ft) PI); destruct (Rgt_dec (ft - fs) PI);
    try lra;
    destruct (Rlt_dec (fs - ft) (- PI)); destruct (Rlt_dec (ft - fs) (- PI));
    lra.
Qed.

Lemma Rtrunc_succ (q : R) : 0 <= q -> Rtrunc (q + 1) = (Rtrunc q + 1)%Z.
Proof.
  intros Hq.
  destruct (Rtrunc_nonneg q Hq) as [H1 H2].
  destruct (Rtrunc_nonneg (q + 1) ltac:(lra)) as [H3 H4].
  assert (Hz : (Rtrunc q < Rtrunc (q + 1) < Rtrunc q + 2)%Z).
  { split; apply lt_IZR; [| rewrite plus_IZR]; lra. }
  lia.
Qed.

Lemma fmod_shift (x : R) :
  0 <= x -> fmod (x + 2 * PI) (2 * PI) = fmod x (2 * PI).
Proof.
  intros Hx. pose proof two_PI_pos as Hp.
  assert (Hq : 0 <= x / (2 * PI)).
  { unfold Rdiv. apply Rmult_le_pos; [lra |].
    left. apply Rinv_0_lt_compat. lra. }
  unfold fmod.
  replace ((x + 2 * PI) / (2 * PI)) with (x / (2 * PI) + 1) by (field; lra).
  rewrite (Rtrunc_succ _ Hq), plus_IZR. lra.
Qed.

(** X6. For angles at or above [-2 * PI], a full turn added to either
    angle does not change the difference. *)
Theorem smallestAngleDiff_full_turn (target source : R) :
  - (2 * PI) <= target -> - (2 * PI) <= source ->
  smallestAngleDiff (target + 2 * PI) source = smallestAngleDiff target source /\
  smallestAngleDiff target (source + 2 * PI) = smallestAngleDiff target source.
Proof.
  intros Ht Hs. rewrite !smallestAngleDiff_unfold. cbv zeta.
  rewrite (fmod_shift (target + 2 * PI)) by lra.
  rewrite (fmod_shift (source + 2 * PI)) by lra.
  split; reflexivity.
Qed.

Lemma smallestAngleDiff_full_turn_witness :
  - (2 * PI) <= 0 /\ - (2 * PI) <= PI /\
  smallestAngleDiff (0 + 2 * PI) PI = smallestAngleDiff 0 PI.
Proof.
  pose proof PI_gt_3 as Hpi.
  assert (H0 : - (2 * PI) <= 0) by lra.
  assert (H1 : - (2 * PI) <= PI) by lra.
  split; [exact H0 |]. split; [exact H1 |].
  exact (proj1 (smallestAngleDiff_full_turn 0 PI H0 H1)).
Defined.

(** The bearing [atan2] returns lies in [(-PI, PI]]. *)
Lemma atan2_range (y x : R) : - PI < atan2 y x <= PI.
Proof.
  pose proof PI_gt_3 as Hpi. unfold atan2.
  pose proof (atan_bound (y / x)) as Hb.
  destruct (Rlt_dec 0 x) as [Hx | Hx]; [lra |].
  destruct (Rlt_dec x 0) as [Hx' | Hx'].
  - assert (Hi : / x < 0) by (apply Rinv_lt_0_compat; exact Hx').
    destruct (Rle_dec 0 y) as [Hy | Hy].
    + assert (Hq : y / x <= 0) by (unfold Rdiv; nra).
      assert (Ha : atan (y / x) <= 0).
      { destruct Hq as [Hq | Hq].
        - pose proof (atan_increasing _ _ Hq) as Hlt. rewrite atan_0 in Hlt. lra.
        - rewrite Hq, atan_0. lra. }
      lra.
    + assert (Hq : 0 < y / x) by (unfold Rdiv; nra).
      pose proof (atan_increasing _ _ Hq) as Hlt. rewrite atan_0 in Hlt. lra.
  - destruct (Rlt_dec 0 y); [lra |]. destruct (Rlt_dec y 0); lra.
Qed.

(** A half turn added to an angle that differs from it by more than
    [PI / 2 + PI / 20] leaves less than [PI / 2 - PI / 20]. *)
Lemma half_turn_closer (e e' : R) (m : Z) :
  - PI <= e <= PI -> - PI <= e' <= PI ->
  Rabs e > PI / 2 + PI / 20 ->
  e' = e + PI + IZR m * (2 * PI) ->
  Rabs e' < PI / 2 - PI / 20.
Proof.
  intros He He' Hbig Heq. pose proof PI_gt_3 as Hpi.
  unfold Rabs in Hbig. destruct (Rcase_abs e) as [Hneg | Hpos].
  - assert (Hm : (-1 < m < 1)%Z).
    { split; apply lt_IZR.
      - assert (-1 * (2 * PI) < IZR m * (2 * PI)) by lra. nra.
      - assert (IZR m * (2 * PI) < 1 * (2 * PI)) by lra. nra. }
    assert (m = 0%Z) by lia. subst m.
    unfold Rabs. destruct (Rcase_abs e'); lra.
  - assert (Hm : (-2 < m < 0)%Z).
    { split; apply lt_IZR.
      - assert (-2 * (2 * PI) < IZR m * (2 * PI)) by lra. nra.
      - assert (IZR m * (2 * PI) < 0 * (2 * PI)) by lra. nra. }
    assert (m = (-1)%Z) by lia. subst m.
    unfold Rabs. destruct (Rcase_abs e'); lra.
Qed.

Lemma heading_error_bound (h o : R) :
  - PI <= h <= PI -> - PI < o <= PI ->
  if fst (heading_error h o)
  then Rabs (snd (heading_error h o)) < PI / 2 - PI / 20
  else Rabs (snd (heading_error h o)) <= PI / 2 + PI / 20.
Proof.
  intros Hh Ho. pose proof PI_gt_3 as Hpi. unfold heading_error.
  replace (PI / 2.0 + PI / 20.0) with (PI / 2 + PI / 20) by lra.
  destruct (Rgt_dec _ _) as [Hbig | Hsmall]; simpl; [| lra].
  pose proof (smallestAngleDiff_closed_range h o ltac:(lra) ltac:(lra)) as He.
  pose proof (convert_angle_float_range (h + PI)) as Hh'.
  pose proof (smallestAngleDiff_closed_range
                (convert_angle_float (h + PI)) o ltac:(lra) ltac:(lra)) as He'.
  destruct (smallestAngleDiff_congruent h o) as [k0 Hk0].
  destruct (convert_angle_float_congruent (h + PI)) as [k1 Hk1].
  destruct (smallestAngleDiff_congruent (convert_angle_float (h + PI)) o)
    as [k2 Hk2].
  apply (half_turn_closer _ _ (k1 + k2 - k0)%Z He He' Hbig).
  rewrite Hk2 at 1. rewrite Hk1, Hk0, minus_IZR, plus_IZR. lra.
Qed.

(** X7. For a robot whose heading is normalized, in [[-PI, PI]], the
    heading error that enters the PD term and is stored never exceeds
    [PI / 2 + PI / 20] in absolute value; when reversed mode is taken it
    is even below [PI / 2 - PI / 20]. *)
Theorem stored_error_bounded (our_bot objective : Entity) (lastError : R) :
  - PI <= a our_bot <= PI ->
  let angle_obj := atan2 (y objective - y our_bot) (x objective - x our_bot) in
  let error := snd (drive our_bot objective lastError) in
  if fst (heading_error (a our_bot) angle_obj)
  then Rabs error < PI / 2 - PI / 20
  else Rabs error <= PI / 2 + PI / 20.
Proof.
  intros Hh. cbv zeta. rewrite drive_unfold. cbv zeta. simpl snd.
  apply heading_error_bound; [exact Hh | apply atan2_range].
Qed.

Lemma stored_error_bounded_witness :
  - PI <= a (mkEntity 0 0 0 0) <= PI /\
  Rabs (snd (drive (mkEntity 0 0 0 0) (mkEntity 0 (-1) 0 0) 0))
    < PI / 2 - PI / 20.
Proof.
  assert (Hh : - PI <= a (mkEntity 0 0 0 0) <= PI)
    by (pose proof PI_gt_3; simpl; lra).
  split; [exact Hh |].
  pose proof (stored_error_bounded (mkEntity 0 0 0 0) (mkEntity 0 (-1) 0 0) 0 Hh)
    as H.
  cbv zeta in H. simpl x in H. simpl y in H. simpl a in H.
  rewrite atan2_behind in H.
  rewrite (proj1 drive_target_behind) in H. exact H.
Defined.

(** ** Further properties of the wheel speeds *)

Lemma motor_speeds_difference (reversed : bool) (error_speed : R) :
  fst (motor_speeds reversed error_speed)
    - snd (motor_speeds reversed error_speed) = error_speed.
Proof.
  unfold motor_speeds. destruct reversed; destruct (Rgt_dec _ _); simpl; lra.
Qed.

(** X8. In forward and in reversed mode alike, the left speed minus the
    right speed is the clamped PD term: the clamp of
    [Kp * error + Kd * (error - lastError)] into [[-30, 30]], where [error]
    is the error the robot stores. *)
Theorem wheel_difference (our_bot objective : Entity) (lastError : R) :
  let d := drive our_bot objective lastError in
  fst (fst d) - snd (fst d) =
    normalize (Kp * snd d + Kd * (snd d - lastError)) /\
  - 30 <= fst (fst d) - snd (fst d) <= 30.
Proof.
  cbv zeta. rewrite drive_unfold. cbv zeta. simpl fst. simpl snd.
  rewrite motor_speeds_difference. split; [reflexivity |].
  apply normalize_range.
Qed.

Lemma motor_speeds_full_wheel (reversed : bool) (error_speed : R) :
  - baseSpeed <= error_speed <= baseSpeed ->
  if reversed
  then Rmin (fst (motor_speeds reversed error_speed))
            (snd (motor_speeds reversed error_speed)) = - baseSpeed
  else Rmax (fst (motor_speeds reversed error_speed))
            (snd (motor_speeds reversed error_speed)) = baseSpeed.
Proof.
  unfold motor_speeds, baseSpeed, Rmin, Rmax. intros H.
  destruct reversed; destruct (Rgt_dec _ _); simpl;
    destruct (Rle_dec _ _); lra.
Qed.

(** X9. One wheel always runs at full base speed: in forward mode the
    larger of the two speeds is 30, in reversed mode the smaller is -30.
    The controller therefore never commands a standstill, not even for a
    robot that sits on its objective. *)
Theorem one_wheel_at_base_speed (our_bot objective : Entity) (lastError : R) :
  let angle_obj := atan2 (y objective - y our_bot) (x objective - x our_bot) in
  let left_speed := fst (fst (drive our_bot objective lastError)) in
  let right_speed := snd (fst (drive our_bot objective lastError)) in
  (if fst (heading_error (a our_bot) angle_obj)
   then Rmin left_speed right_speed = - 30
   else Rmax left_speed right_speed = 30) /\
  (left_speed, right_speed) <> (0, 0).
Proof.
  cbv zeta. rewrite drive_unfold. cbv zeta. simpl fst.
  set (reversed := fst (heading_error _ _)).
  set (es := normalize _).
  pose proof (motor_speeds_full_wheel reversed es (normalize_range _)) as Hm.
  unfold baseSpeed in Hm. split; [exact Hm |].
  intros Heq. injection Heq as Hl Hr. rewrite Hl, Hr in Hm.
  unfold Rmin, Rmax in Hm.
  destruct reversed; destruct (Rle_dec 0 0); lra.
Qed.

(** ** Further properties of objective assignment *)

Lemma lookup_raises (field : Field) (k : string) (e : exn) :
  lookup field k = Raise e -> e = KeyError.
Proof.
  induction field as [| [k' v] rest IH]; simpl.
  - intros H. injection H as <-. reflexivity.
  - destruct (String.eqb k k'); [discriminate | exact IH].
Qed.

(** X10. [main_strategy] succeeds exactly when the field's ["ball"] entry
    is an entity; it raises [KeyError] when the key is missing and
    [AttributeError] when the entry is a list. Nothing else in the field is
    read. *)
Theorem main_strategy_cases (field : Field) :
  main_strategy field =
    match lookup field "ball" with
    | Ok (IEntity ball) =>
        Ok [mkEntity 0 (x ball) (y ball) 0;
            mkEntity 1 (x ball) (y ball) 0;
            mkEntity 2 (x ball) (y ball) 0]
    | Ok (IList _) => Raise AttributeError
    | Raise _ => Raise KeyError
    end.
Proof.
  destruct (lookup field "ball") as [[ball | l] | e] eqn:Hb.
  - apply main_strategy_entity. exact Hb.
  - unfold main_strategy. rewrite Hb. reflexivity.
  - unfold main_strategy. rewrite Hb, (lookup_raises _ _ _ Hb). reflexivity.
Qed.

(** ** Further properties of the controller loop *)

Lemma controller_step_no_objective (i : nat) (our_bots : item)
  (objectives : list Entity) (st : State) (e : exn) :
  getitem objectives i = Raise e ->
  controller_step i our_bots objectives st =
    (Raise e, Some (ensure_lastError st)).
Proof. intros Ho. unfold controller_step. rewrite Ho. reflexivity. Qed.

Lemma controller_step_no_bot (i : nat) (our_bots : item)
  (objectives : list Entity) (st : State) (objective : Entity) (e : exn) :
  getitem objectives i = Ok objective ->
  item_getitem our_bots i = Raise e ->
  controller_step i our_bots objectives st =
    (Raise e, Some (ensure_lastError st)).
Proof. intros Ho Hb. unfold controller_step. rewrite Ho, Hb. reflexivity. Qed.

(** Run the three iterations of the loop in hypothesis [H]. *)
Ltac run_loop_in H :=
  unfold range, NUM_BOTS in H; simpl seq in H; cbn [controller_loop] in H;
  repeat (first
    [ erewrite controller_step_ok in H by reflexivity
    | rewrite controller_step_no_objective in H by reflexivity
    | erewrite controller_step_no_bot in H by reflexivity ];
    cbv beta iota zeta in H).

Ltac run_loop :=
  unfold range, NUM_BOTS; simpl seq; cbn [controller_loop];
  repeat (first
    [ erewrite controller_step_ok by reflexivity
    | rewrite controller_step_no_objective by reflexivity
    | erewrite controller_step_no_bot by reflexivity ];
    cbv beta iota zeta).

Lemma controller_ok_inv (field : Field) (objectives : list Entity)
  (st st' : State) (speeds : list Speed) :
  controller field objectives st = (Ok speeds, st') ->
  exists b0 b1 b2 bs o0 o1 o2 os,
    lookup field "our_bots" = Ok (IList (b0 :: b1 :: b2 :: bs)) /\
    objectives = o0 :: o1 :: o2 :: os.
Proof.
  unfold controller. intros H.
  destruct (lookup field "our_bots") as [[e | l] | e]; [| | discriminate].
  - destruct objectives as [| o0 [| o1 [| o2 os]]];
      run_loop_in H; discriminate.
  - destruct objectives as [| o0 [| o1 [| o2 os]]];
      destruct l as [| b0 [| b1 [| b2 bs]]];
      run_loop_in H; try discriminate.
    exists b0, b1, b2, bs, o0, o1, o2, os. split; reflexivity.
Qed.

Lemma drive_speeds_range (our_bot objective : Entity) (lastError : R) :
  - 30 <= fst (fst (drive our_bot objective lastError)) <= 30 /\
  - 30 <= snd (fst (drive our_bot objective lastError)) <= 30.
Proof.
  rewrite drive_unfold. cbv zeta. simpl fst.
  set (reversed := fst (heading_error _ _)).
  set (es := normalize _).
  pose proof (motor_speeds_range reversed es (normalize_range _)) as Hm.
  unfold baseSpeed in Hm. destruct reversed; lra.
Qed.

(** X11. With a list under ["our_bots"], the controller raises
    [IndexError] whenever that list or the list of objectives has fewer
    than [NUM_BOTS] entries; no speeds are returned, and
    [controller.lastError] is set by then. *)
Theorem controller_index_error (field : Field) (l objectives : list Entity)
  (st : State) :
  lookup field "our_bots" = Ok (IList l) ->
  (List.length l < NUM_BOTS)%nat \/ (List.length objectives < NUM_BOTS)%nat ->
  exists e : R,
    controller field objectives st = (Raise IndexError, Some e).
Proof.
  intros Hf Hlen. unfold controller. rewrite Hf. unfold NUM_BOTS in Hlen.
  destruct objectives as [| o0 [| o1 [| o2 os]]];
    destruct l as [| b0 [| b1 [| b2 bs]]];
    simpl in Hlen; try lia; run_loop; eexists; reflexivity.
Qed.

Lemma controller_index_error_witness :
  lookup Sample.field "our_bots" = Ok (IList Sample.our_bots) /\
  exists e : R,
    controller Sample.field [mkEntity 0 1 0 0] None = (Raise IndexError, Some e).
Proof.
  split; [reflexivity |].
  apply (controller_index_error Sample.field Sample.our_bots).
  - reflexivity.
  - right. unfold NUM_BOTS. simpl. lia.
Defined.

Lemma controller_shape (field : Field) (objectives : list Entity)
  (st st' : State) (speeds : list Speed) :
  controller field objectives st = (Ok speeds, st') ->
  map s_index speeds = [0; 1; 2]%nat /\
  Forall (fun s => - 30 <= s_left s <= 30 /\ - 30 <= s_right s <= 30) speeds /\
  exists e : R, st' = Some e.
Proof.
  intros H.
  destruct (controller_ok_inv _ _ _ _ _ H)
    as (b0 & b1 & b2 & bs & o0 & o1 & o2 & os & Hf & ->).
  rewrite (controller_unrolled field b0 b1 b2 o0 o1 o2 bs os st Hf) in H.
  cbv zeta in H. injection H as <- <-.
  split; [reflexivity |]. split; [| eexists; reflexivity].
  repeat (apply Forall_cons; [simpl; apply drive_speeds_range |]).
  apply Forall_nil.
Qed.

(** X12. Whenever the controller returns, it returns exactly three
    entries, for the indices 0, 1, 2 in this order, each with both wheel
    speeds in [[-30, 30]], and [controller.lastError] is set. *)
Theorem controller_success_shape (field : Field) (objectives : list Entity)
  (st st' : State) (speeds : list Speed) :
  controller field objectives st = (Ok speeds, st') ->
  map s_index speeds = [0; 1; 2]%nat /\
  Forall (fun s => - 30 <= s_left s <= 30 /\ - 30 <= s_right s <= 30) speeds /\
  exists e : R, st' = Some e.
Proof. apply controller_shape. Qed.

Lemma controller_success_shape_witness :
  exists (speeds : list Speed) (st' : State),
    controller Sample.field Sample.objectives None = (Ok speeds, st') /\
    map s_index speeds = [0; 1; 2]%nat.
Proof.
  destruct (controller Sample.field Sample.objectives None)
    as [[speeds | e] st'] eqn:H.
  - exists speeds, st'. split; [reflexivity |].
    exact (proj1 (controller_success_shape _ _ _ _ _ H)).
  - exfalso. pose proof sample_speeds_code as Hc. rewrite H in Hc.
    discriminate Hc.
Defined.

(** X13. What was stored before a run of the controller reaches robot 0
    only: from any two stored values the runs succeed or fail together,
    and when they succeed the speeds of robots 1 and 2 and the value
    stored afterwards are the same. *)
Theorem controller_history_robot_0 (field : Field) (objectives : list Entity)
  (st1 st2 st' : State) (speeds1 : list Speed) :
  controller field objectives st1 = (Ok speeds1, st') ->
  exists speeds2 : list Speed,
    controller field objectives st2 = (Ok speeds2, st') /\
    tl speeds2 = tl speeds1.
Proof.
  intros H.
  destruct (controller_ok_inv _ _ _ _ _ H)
    as (b0 & b1 & b2 & bs & o0 & o1 & o2 & os & Hf & ->).
  rewrite (controller_unrolled field b0 b1 b2 o0 o1 o2 bs os st1 Hf) in H.
  rewrite (controller_unrolled field b0 b1 b2 o0 o1 o2 bs os st2 Hf).
  cbv zeta in *. injection H as <- <-.
  rewrite !(drive_unfold b0 o0). cbv zeta. simpl snd.
  eexists. split; reflexivity.
Qed.

Lemma controller_history_robot_0_witness :
  exists (speeds1 speeds2 : list Speed) (st' : State),
    controller Sample.field Sample.objectives None = (Ok speeds1, st') /\
    controller Sample.field Sample.objectives (Some 1) = (Ok speeds2, st') /\
    tl speeds2 = tl speeds1.
Proof.
  destruct (controller Sample.field Sample.objectives None)
    as [[speeds1 | e] st'] eqn:H.
  - destruct (controller_history_robot_0 Sample.field Sample.objectives
                None (Some 1) st' speeds1 H) as [speeds2 [H2 Ht]].
    exists speeds1, speeds2, st'. split; [reflexivity |]. split; assumption.
  - exfalso. pose proof sample_speeds_code as Hc. rewrite H in Hc.
    discriminate Hc.
Defined.

(** ** Further properties of one tick *)

Lemma tick_game_on (ref_data : RefData) (field : Field) (st : State) :
  game_on ref_data = true ->
  tick ref_data field st =
    match main_strategy field with
    | Raise e => (Raise e, st)
    | Ok objectives =>
        match controller field objectives st with
        | (Raise e, st') => (Raise e, st')
        | (Ok speeds, st') => (Ok (send_all speeds), st')
        end
    end.
Proof. intros Hg. unfold tick. rewrite Hg. reflexivity. Qed.

Lemma tick_on_ball (ref_data : RefData) (field : Field)
  (ball b0 b1 b2 : Entity) (bs : list Entity) (st : State) :
  game_on ref_data = true ->
  lookup field "ball" = Ok (IEntity ball) ->
  lookup field "our_bots" = Ok (IList (b0 :: b1 :: b2 :: bs)) ->
  let target := fun i => mkEntity i (x ball) (y ball) 0 in
  let d0 := drive b0 (target 0%nat) (ensure_lastError st) in
  let d1 := drive b1 (target 1%nat) (snd d0) in
  let d2 := drive b2 (target 2%nat) (snd d1) in
  tick ref_data field st =
    (Ok [mkCommand 0 (fst (fst d0)) (snd (fst d0));
         mkCommand 1 (fst (fst d1)) (snd (fst d1));
         mkCommand 2 (fst (fst d2)) (snd (fst d2))],
     Some (snd d2)).
Proof.
  intros Hg Hb Hf. cbv zeta.
  rewrite (tick_game_on _ _ _ Hg), (main_strategy_entity field ball Hb).
  rewrite (controller_unrolled field b0 b1 b2 _ _ _ bs [] st Hf).
  reflexivity.
Qed.

(** X14. A tick with the game on, over a field with a ball and at least
    three robots of ours, sends one command per robot 0, 1, 2: the wheel
    speeds that drive the robot to the ball's position, each PD term taken
    against the error of the robot before it, and the error of robot 2 is
    what stays stored. Further robots in the list are not commanded. *)
Theorem tick_running (ref_data : RefData) (field : Field)
  (ball b0 b1 b2 : Entity) (bs : list Entity) (st : State) :
  game_on ref_data = true ->
  lookup field "ball" = Ok (IEntity ball) ->
  lookup field "our_bots" = Ok (IList (b0 :: b1 :: b2 :: bs)) ->
  let target := fun i => mkEntity i (x ball) (y ball) 0 in
  let d0 := drive b0 (target 0%nat) (ensure_lastError st) in
  let d1 := drive b1 (target 1%nat) (snd d0) in
  let d2 := drive b2 (target 2%nat) (snd d1) in
  tick ref_data field st =
    (Ok [mkCommand 0 (fst (fst d0)) (snd (fst d0));
         mkCommand 1 (fst (fst d1)) (snd (fst d1));
         mkCommand 2 (fst (fst d2)) (snd (fst d2))],
     Some (snd d2)).
Proof. apply tick_on_ball. Qed.

Lemma tick_running_witness :
  game_on (mkRefData GAME_ON true) = true /\
  lookup Sample.field "ball" = Ok (IEntity Sample.ball) /\
  lookup Sample.field "our_bots" = Ok (IList Sample.our_bots) /\
  exists commands : list Command,
    fst (tick (mkRefData GAME_ON true) Sample.field None) = Ok commands /\
    map cmd_index commands = [0; 1; 2]%nat.
Proof.
  split; [reflexivity |]. split; [reflexivity |]. split; [reflexivity |].
  pose proof (tick_running (mkRefData GAME_ON true) Sample.field Sample.ball
                (mkEntity 0 0 0 1) (mkEntity 1 0 0 0) (mkEntity 2 0 0 0) []
                None eq_refl eq_refl eq_refl) as H.
  cbv zeta in H. rewrite H. eexists. split; reflexivity.
Defined.

(** X15. A tick with the game on over a field that lacks the ball, or has
    a ball but lacks our robots, raises [KeyError]: nothing is sent and
    [controller.lastError] is left as it was. *)
Theorem tick_missing_key (ref_data : RefData) (field : Field) (st : State) :
  game_on ref_data = true ->
  lookup field "ball" = Raise KeyError \/
  ((exists ball, lookup field "ball" = Ok (IEntity ball)) /\
   lookup field "our_bots" = Raise KeyError) ->
  tick ref_data field st = (Raise KeyError, st).
Proof.
  intros Hg [Hb | [[ball Hb] Hf]]; rewrite (tick_game_on _ _ _ Hg).
  - unfold main_strategy. rewrite Hb. reflexivity.
  - rewrite (main_strategy_entity field ball Hb).
    unfold controller. rewrite Hf. reflexivity.
Qed.

Lemma tick_missing_key_witness :
  game_on (mkRefData GAME_ON true) = true /\
  lookup [] "ball" = Raise KeyError /\
  tick (mkRefData GAME_ON true) [] (Some 1) = (Raise KeyError, Some 1).
Proof.
  split; [reflexivity |]. split; [reflexivity |].
  apply (tick_missing_key (mkRefData GAME_ON true) [] (Some 1) eq_refl).
  left. reflexivity.
Defined.

Lemma stop_safe : Loop.safe_batch stop.
Proof.
  split; [reflexivity |].
  unfold stop, range, NUM_BOTS. simpl.
  repeat (apply Forall_cons; [simpl; lra |]). apply Forall_nil.
Qed.

Lemma send_all_safe (speeds : list Speed) :
  map s_index speeds = [0; 1; 2]%nat ->
  Forall (fun s => - 30 <= s_left s <= 30 /\ - 30 <= s_right s <= 30) speeds ->
  Loop.safe_batch (send_all speeds).
Proof.
  intros Hi Hb. split.
  - unfold send_all. rewrite map_map. exact Hi.
  - unfold send_all. apply Forall_map. exact Hb.
Qed.

Lemma tick_safe (ref_data : RefData) (field : Field) (st st' : State)
  (commands : list Command) :
  tick ref_data field st = (Ok commands, st') -> Loop.safe_batch commands.
Proof.
  destruct (game_on ref_data) eqn:Hg.
  - rewrite (tick_game_on _ _ _ Hg).
    destruct (main_strategy field) as [objectives | e]; [| discriminate].
    destruct (controller field objectives st) as [[speeds | e] st1] eqn:Hc;
      [| discriminate].
    intros H. injection H as <- <-.
    destruct (controller_shape _ _ _ _ _ Hc) as (Hi & Hb & _).
    apply send_all_safe; assumption.
  - rewrite (tick_not_game_on _ _ _ Hg). intros H. injection H as <- <-.
    apply stop_safe.
Qed.

(** ** The main loop over several ticks *)

Lemma run_cons (ref_data : RefData) (field : Field)
  (rest : list (RefData * Field)) (st : State) :
  Loop.run ((ref_data, field) :: rest) st =
    match tick ref_data field st with
    | (Raise e, st') => ([], st', Some e)
    | (Ok commands, st') =>
        let '(sent, st'', e) := Loop.run rest st' in
        (commands :: sent, st'', e)
    end.
Proof. reflexivity. Qed.

(** X16. Whatever the referee and the vision report, tick after tick, and
    whatever was stored at the start, every batch the loop sends holds one
    command per robot 0, 1, 2, in this order, with both wheel speeds in
    [[-30, 30]]. *)
Theorem run_commands_safe (inputs : list (RefData * Field)) (st : State) :
  Forall Loop.safe_batch (fst (fst (Loop.run inputs st))).
Proof.
  revert st. induction inputs as [| [ref_data field] rest IH]; intros st.
  - apply Forall_nil.
  - rewrite run_cons.
    destruct (tick ref_data field st) as [[commands | e] st'] eqn:Ht.
    + specialize (IH st').
      destruct (Loop.run rest st') as [[sent st''] e']. simpl in *.
      apply Forall_cons; [apply (tick_safe _ _ _ _ _ Ht) | exact IH].
    + apply Forall_nil.
Qed.

(** X17. Ticks with the game off are invisible to the controller: a
    stretch of them sends a stop batch each and the loop then goes on
    exactly as it would have without them, from the same stored error. *)
Theorem run_stopped_transparent (stopped rest : list (RefData * Field))
  (st : State) :
  Forall (fun rf => game_on (fst rf) = false) stopped ->
  Loop.run (stopped ++ rest) st =
    let '(sent, st', e) := Loop.run rest st in
    (map (fun _ => stop) stopped ++ sent, st', e).
Proof.
  induction 1 as [| [ref_data field] stopped' Hoff _ IH].
  - simpl. destruct (Loop.run rest st) as [[sent st'] e]. reflexivity.
  - simpl app. rewrite run_cons, (tick_not_game_on _ _ _ Hoff), IH.
    destruct (Loop.run rest st) as [[sent st'] e]. reflexivity.
Qed.

Lemma run_stopped_transparent_witness :
  Forall (fun rf : RefData * Field => game_on (fst rf) = false)
    [(Sample.halted, [])] /\
  Loop.run ([(Sample.halted, [])] ++ []) (Some 1) = ([stop], Some 1, None).
Proof.
  assert (H : Forall (fun rf : RefData * Field => game_on (fst rf) = false)
                [(Sample.halted, [])])
    by (apply Forall_cons; [reflexivity | apply Forall_nil]).
  split; [exact H |].
  exact (run_stopped_transparent [(Sample.halted, [])] [] (Some 1) H).
Defined.

Lemma tick_well_formed (ref_data : RefData) (field : Field) (st : State) :
  Loop.well_formed field ->
  exists commands st', tick ref_data field st = (Ok commands, st').
Proof.
  intros (ball & b0 & b1 & b2 & bs & Hb & Hf).
  destruct (game_on ref_data) eqn:Hg.
  - pose proof (tick_on_ball ref_data field ball b0 b1 b2 bs st Hg Hb Hf) as H.
    cbv zeta in H. rewrite H. eexists. eexists. reflexivity.
  - rewrite (tick_not_game_on _ _ _ Hg). eexists. eexists. reflexivity.
Qed.

(** X18. Over fields that each hold a ball and at least three robots of
    ours, the loop never raises: it sends one batch per tick, game on or
    off. *)
Theorem run_well_formed (inputs : list (RefData * Field)) (st : State) :
  Forall (fun rf => Loop.well_formed (snd rf)) inputs ->
  exists sent st',
    Loop.run inputs st = (sent, st', None) /\
    List.length sent = List.length inputs.
Proof.
  intros Hwf. revert st.
  induction Hwf as [| [ref_data field] rest Hw _ IH]; intros st.
  - exists [], st. split; reflexivity.
  - rewrite run_cons.
    destruct (tick_well_formed ref_data field st Hw) as (commands & st1 & Ht).
    rewrite Ht. destruct (IH st1) as (sent & st' & Hr & Hl). rewrite Hr.
    exists (commands :: sent), st'. split; [reflexivity |].
    simpl. rewrite Hl. reflexivity.
Qed.

Lemma sample_well_formed : Loop.well_formed Sample.field.
Proof.
  exists Sample.ball, (mkEntity 0 0 0 1), (mkEntity 1 0 0 0),
    (mkEntity 2 0 0 0), []. split; reflexivity.
Defined.

Lemma run_well_formed_witness :
  Forall (fun rf : RefData * Field => Loop.well_formed (snd rf))
    [(mkRefData GAME_ON true, Sample.field); (Sample.halted, Sample.field)] /\
  exists sent st',
    Loop.run [(mkRefData GAME_ON true, Sample.field);
              (Sample.halted, Sample.field)] None = (sent, st', None) /\
    List.length sent = 2%nat.
Proof.
  assert (H : Forall (fun rf : RefData * Field => Loop.well_formed (snd rf))
                [(mkRefData GAME_ON true, Sample.field);
                 (Sample.halted, Sample.field)]).
  { repeat (apply Forall_cons; [exact sample_well_formed |]). apply Forall_nil. }
  split; [exact H |].
  exact (run_well_formed _ None H).
Defined.

(** ** bridge.py: what the vision client returns *)



